(** * The process-entry trampoline of libtock ([userland/libtock/crt1.c])

    [_start] is a naked, noreturn function whose body is one block of
    inline assembly followed by two C-level calls that only exist to keep
    [main] alive under link-time optimisation.  The development below

    - represents the two functions of the file as the source has them
      (C statements, assembly lines with numeric local labels),
    - lowers them to a flat instruction list (label resolution; a naked
      function gets neither prologue nor epilogue),
    - runs that code on a small register machine in which [main] and
      [yield], the two external collaborators, are oracles that either
      come back with a new machine state or never come back,
    - and proves the control-flow and frame properties of the trampoline
      by an invariant over the reachable machine states. *)

From Stdlib Require Import ZArith List Bool Lia PeanoNat.
Import ListNotations.

Set Implicit Arguments.

(** ** Symbols, registers and values *)

(** The four code symbols the file mentions.  [sym_main] and [sym_yield]
    are declared but not defined here ([extern int main(void)], [yield]
    from [tock.h]). *)
Inductive sym : Type :=
| sym_start   (* _start *)
| sym_main    (* main *)
| sym_yield   (* yield *)
| sym_dummy.  (* lto_asm_references_dummy_function *)

(** Core registers of the ARM profile the assembly is written for; the
    program counter is kept apart, as a code location. *)
Inductive reg : Type :=
| R0 | R1 | R2 | R3 | R4 | R5 | R6 | R7
| R8 | R9 | R10 | R11 | R12 | SP | LR.

Definition sym_eq_dec (a b : sym) : {a = b} + {a <> b}.
Proof. decide equality. Defined.

Definition reg_eq_dec (a b : reg) : {a = b} + {a <> b}.
Proof. decide equality. Defined.

(** A code location: the [i]-th instruction of function [f]. *)
Inductive loc : Type := Loc (f : sym) (i : nat).

Definition loc_eq_dec (a b : loc) : {a = b} + {a <> b}.
Proof. decide equality; [apply Nat.eq_dec | apply sym_eq_dec]. Defined.

(** Register contents: a 32-bit word or a code address. *)
Inductive val : Type :=
| Vint (n : Z)
| Vcode (l : loc).

Definition val_eq_dec (a b : val) : {a = b} + {a <> b}.
Proof. decide equality; [apply Z.eq_dec | apply loc_eq_dec]. Defined.

Definition wrap32 (n : Z) : Z := n mod 2 ^ 32.

Definition regfile := reg -> val.
Definition memory := Z -> val.

Definition set_reg (r : reg) (v : val) (rf : regfile) : regfile :=
  fun r' => if reg_eq_dec r' r then v else rf r'.

Definition store (a : Z) (v : val) (mm : memory) : memory :=
  fun a' => if Z.eq_dec a' a then v else mm a'.

(** ** The source, as written *)

(** Operations that occur in the [asm volatile] block. [Ab_back l] is
    [b <l>b]: a branch to the nearest definition of the numeric local
    label [l] at or before the branch. *)
Inductive asm_op : Type :=
| Amov (rd rs : reg)
| Abl (f : sym)
| Ab_back (l : nat).

Record asm_line : Type := AsmLine {
  al_label : option nat;
  al_op : asm_op
}.

(** The statements that occur in the two function bodies: an assembly
    block, or a call [f();] whose result is dropped. *)
Inductive stmt : Type :=
| Sasm (lines : list asm_line)
| Scall (f : sym).

Record fundef : Type := Fundef {
  fn_naked : bool;      (* __attribute__((naked)) *)
  fn_noreturn : bool;   (* __attribute__((noreturn)) *)
  fn_body : list stmt
}.

(** [_start], lines 15-37:
<<
  asm volatile ("mov r9, sp; bl main; 1: bl yield; b 1b");
  main();
  yield();
>> *)
Definition _start : fundef :=
  {| fn_naked := true;
     fn_noreturn := true;
     fn_body :=
       [ Sasm [ AsmLine None     (Amov R9 SP);
                AsmLine None     (Abl sym_main);
                AsmLine (Some 1) (Abl sym_yield);
                AsmLine None     (Ab_back 1) ];
         Scall sym_main;
         Scall sym_yield ] |}.

(** [lto_asm_references_dummy_function], lines 40-44. *)
Definition lto_asm_references_dummy_function : fundef :=
  {| fn_naked := false;
     fn_noreturn := false;
     fn_body := [ Scall sym_main; Scall sym_yield ] |}.

(** ** Lowering to instructions *)

Inductive instr : Type :=
| Imov (rd rs : reg)       (* mov rd, rs *)
| Ibl (f : sym)            (* bl f: lr := next instruction, pc := f *)
| Ib (target : nat)        (* b to an instruction of the same function *)
| Ipush_lr                 (* push {lr}: a store below the stack pointer *)
| Ipop_pc.                 (* pop {pc}: a load from the stack into pc *)

Definition defines (l : nat) (ln : asm_line) : bool :=
  match al_label ln with
  | Some l' => Nat.eqb l' l
  | None => false
  end.

(** Index of the last line among [lines], numbered from [idx], that
    defines label [l]; [acc] is the best candidate so far. *)
Fixpoint last_def (l : nat) (lines : list asm_line) (idx : nat)
         (acc : option nat) : option nat :=
  match lines with
  | [] => acc
  | ln :: rest =>
      last_def l rest (S idx) (if defines l ln then Some idx else acc)
  end.

(** Target of [b <l>b] sitting on line [pos]: labels of lines [0..pos]
    are in scope (a label on the branch's own line is already defined). *)
Definition resolve_back (l : nat) (lines : list asm_line) (pos : nat)
  : option nat :=
  last_def l (firstn (S pos) lines) 0 None.

Definition assemble_op (base : nat) (lines : list asm_line) (pos : nat)
           (op : asm_op) : option instr :=
  match op with
  | Amov rd rs => Some (Imov rd rs)
  | Abl f => Some (Ibl f)
  | Ab_back l =>
      match resolve_back l lines pos with
      | Some k => Some (Ib (base + k))
      | None => None
      end
  end.

(** Assemble the lines [todo], which start at position [pos] of the block
    [lines]; the block itself starts at instruction [base] of its
    function. *)
Fixpoint assemble_from (base : nat) (lines todo : list asm_line)
         (pos : nat) : option (list instr) :=
  match todo with
  | [] => Some []
  | ln :: rest =>
      match assemble_op base lines pos (al_op ln),
            assemble_from base lines rest (S pos) with
      | Some i, Some tl => Some (i :: tl)
      | _, _ => None
      end
  end.

Definition assemble (base : nat) (lines : list asm_line)
  : option (list instr) :=
  assemble_from base lines lines 0.

Fixpoint compile_stmts (base : nat) (body : list stmt)
  : option (list instr) :=
  match body with
  | [] => Some []
  | Sasm lines :: rest =>
      match assemble base lines,
            compile_stmts (base + length lines) rest with
      | Some a, Some b => Some (a ++ b)
      | _, _ => None
      end
  | Scall f :: rest =>
      match compile_stmts (S base) rest with
      | Some b => Some (Ibl f :: b)
      | None => None
      end
  end.

(** The instructions of a function's statements, in order.  For a naked
    function this is the whole of its code: the compiler emits neither
    prologue nor epilogue, so nothing of the function follows the last
    statement.  Around the statements of an ordinary function the
    compiler puts a frame of its own choosing; that frame is not part of
    the source and is not modelled, only the calls of the body are. *)
Definition compile_fn (fd : fundef) : option (list instr) :=
  compile_stmts 0 (fn_body fd).

(** The code of the file.  [main] and [yield] have none here. *)
Definition code_of (f : sym) : option (list instr) :=
  match f with
  | sym_start => compile_fn _start
  | sym_dummy => compile_fn lto_asm_references_dummy_function
  | sym_main | sym_yield => None
  end.

(** ** The machine *)

(** What an observer of the process sees the code do.  Register writes
    are logged too, so that frame properties can be read off the log. *)
Inductive event : Type :=
| EvWrite (r : reg) (v : val)    (* an instruction wrote register r *)
| EvCall (f : sym)               (* control was handed to f *)
| EvResume (f : sym)             (* f came back *)
| EvLoad (a : Z)                 (* a memory read *)
| EvStore (a : Z) (v : val).     (* a memory write *)

Definition event_eq_dec (a b : event) : {a = b} + {a <> b}.
Proof.
  decide equality;
    try apply val_eq_dec; try apply reg_eq_dec;
    try apply sym_eq_dec; try apply Z.eq_dec.
Defined.

Definition is_call (f : sym) (e : event) : bool :=
  match e with
  | EvCall g => if sym_eq_dec g f then true else false
  | _ => false
  end.

Definition is_write (r : reg) (e : event) : bool :=
  match e with
  | EvWrite r' _ => if reg_eq_dec r' r then true else false
  | _ => false
  end.

Definition is_mem_access (e : event) : bool :=
  match e with
  | EvLoad _ | EvStore _ _ => true
  | _ => false
  end.

(** Calls and resumptions: the actions visible across the trampoline's
    two interfaces. *)
Definition is_action (e : event) : bool :=
  match e with
  | EvCall _ | EvResume _ => true
  | _ => false
  end.

Definition calls_to (f : sym) (t : list event) : nat :=
  length (filter (is_call f) t).

Definition writes_to (r : reg) (t : list event) : list event :=
  filter (is_write r) t.

Definition actions (t : list event) : list event := filter is_action t.

Section Machine.

(** Everything outside the process (kernel, scheduler, devices). *)
Variable W : Type.

(** An external routine, entered in world [w] with the given registers
    and memory, either comes back ([Some]) or never does ([None]). *)
Definition extern : Type :=
  W -> regfile -> memory -> option (W * regfile * memory).

Variable main_run : extern.
Variable yield_run : extern.

Record machine : Type := Machine {
  m_pc : loc;
  m_regs : regfile;
  m_mem : memory;
  m_world : W;
  m_trace : list event
}.

Definition extern_of (f : sym) : extern :=
  match f with
  | sym_main => main_run
  | sym_yield => yield_run
  | _ => fun _ _ _ => None
  end.

Definition exec (f : sym) (i : nat) (ins : instr) (m : machine)
  : option machine :=
  let rf := m_regs m in
  match ins with
  | Imov rd rs =>
      Some {| m_pc := Loc f (S i);
              m_regs := set_reg rd (rf rs) rf;
              m_mem := m_mem m;
              m_world := m_world m;
              m_trace := m_trace m ++ [EvWrite rd (rf rs)] |}
  | Ibl g =>
      let ra := Vcode (Loc f (S i)) in
      Some {| m_pc := Loc g 0;
              m_regs := set_reg LR ra rf;
              m_mem := m_mem m;
              m_world := m_world m;
              m_trace := m_trace m ++ [EvWrite LR ra; EvCall g] |}
  | Ib t =>
      Some {| m_pc := Loc f t;
              m_regs := rf;
              m_mem := m_mem m;
              m_world := m_world m;
              m_trace := m_trace m |}
  | Ipush_lr =>
      match rf SP with
      | Vint a =>
          let a' := wrap32 (a - 4) in
          Some {| m_pc := Loc f (S i);
                  m_regs := set_reg SP (Vint a') rf;
                  m_mem := store a' (rf LR) (m_mem m);
                  m_world := m_world m;
                  m_trace := m_trace m
                             ++ [EvWrite SP (Vint a'); EvStore a' (rf LR)] |}
      | Vcode _ => None
      end
  | Ipop_pc =>
      match rf SP with
      | Vint a =>
          match m_mem m a with
          | Vcode l =>
              let a' := wrap32 (a + 4) in
              Some {| m_pc := l;
                      m_regs := set_reg SP (Vint a') rf;
                      m_mem := m_mem m;
                      m_world := m_world m;
                      m_trace := m_trace m
                                 ++ [EvLoad a; EvWrite SP (Vint a')] |}
          | Vint _ => None
          end
      | Vcode _ => None
      end
  end.

(** One step.  Inside this file's code the instruction at the program
    counter is executed.  A program counter past the last modelled
    instruction of a function has left the code of this file: what the
    processor runs then is whatever is placed next, and the run is not
    followed further ([None]).  Inside an external routine the oracle
    decides:
    if the routine comes back it does so to the address it was given in
    [lr]; if it never comes back the machine stays inside it. *)
Definition step (m : machine) : option machine :=
  match m_pc m with
  | Loc f i =>
      match code_of f with
      | Some code =>
          match nth_error code i with
          | Some ins => exec f i ins m
          | None => None
          end
      | None =>
          match extern_of f (m_world m) (m_regs m) (m_mem m) with
          | None => Some m
          | Some (w', rf', mem') =>
              match m_regs m LR with
              | Vcode l =>
                  Some {| m_pc := l;
                          m_regs := rf';
                          m_mem := mem';
                          m_world := w';
                          m_trace := m_trace m ++ [EvResume f] |}
              | Vint _ => None
              end
          end
      end
  end.

Fixpoint run (n : nat) (m : machine) : option machine :=
  match n with
  | O => Some m
  | S k =>
      match step m with
      | Some m' => run k m'
      | None => None
      end
  end.

(** The kernel starts the process at the first instruction of [_start],
    with the three handoff addresses in [r0], [r1], [r2] (they are part
    of [rf]) and nothing observed yet. *)
Definition entry (w : W) (rf : regfile) (mm : memory) : machine :=
  {| m_pc := Loc sym_start 0;
     m_regs := rf;
     m_mem := mm;
     m_world := w;
     m_trace := [] |}.

(** The three phases of the specification's state machine, read off the
    program counter: register setup, inside the application, and the
    yield loop (the loop's two instructions or inside [yield]). *)
Inductive phase : Type := Initializing | Running | Idle.

Definition phase_of (l : loc) : option phase :=
  match l with
  | Loc sym_start 0 | Loc sym_start 1 => Some Initializing
  | Loc sym_main _ => Some Running
  | Loc sym_start 2 | Loc sym_start 3 | Loc sym_yield _ => Some Idle
  | _ => None
  end.

(** Registers at the moment [main] is entered from [rf]. *)
Definition regs_at_main (rf : regfile) : regfile :=
  set_reg LR (Vcode (Loc sym_start 2)) (set_reg R9 (rf SP) rf).

End Machine.

Arguments Machine {W} _ _ _ _ _.

(** ** What the trampoline is seen to do *)

(** Up to the moment [main] is entered. *)
Definition into_main (sp0 : val) : list event :=
  [EvWrite R9 sp0; EvWrite LR (Vcode (Loc sym_start 2)); EvCall sym_main].

(** One [bl yield] of the loop. *)
Definition yield_call : list event :=
  [EvWrite LR (Vcode (Loc sym_start 3)); EvCall sym_yield].

(** [k] completed rounds of the loop. *)
Fixpoint yield_rounds (k : nat) : list event :=
  match k with
  | O => []
  | S k' => yield_rounds k' ++ yield_call ++ [EvResume sym_yield]
  end.

(** The log once [main] has come back and [k] rounds are complete. *)
Definition idle_trace (sp0 : val) (k : nat) : list event :=
  into_main sp0 ++ [EvResume sym_main] ++ yield_rounds k.

(** Number of [bl f] in a piece of code. *)
Definition count_bl (f : sym) (code : list instr) : nat :=
  length (filter (fun ins => match ins with
                             | Ibl g => if sym_eq_dec g f then true else false
                             | _ => false
                             end) code).

(** ** Reachable states *)

Section Reachable.

Variable W : Type.

(** The state the kernel hands over. *)
Variable w0 : W.
Variable rf0 : regfile.
Variable mm0 : memory.

(** States of the yield loop: at [1: bl yield], inside [yield], and at
    [b 1b], with what has been logged by then.  Registers, memory and
    world are whatever the external routines left. *)
Inductive parked : machine W -> Prop :=
| park_loop k rf mm w :
    parked (Machine (Loc sym_start 2) rf mm w (idle_trace (rf0 SP) k))
| park_yield k rf mm w :
    rf LR = Vcode (Loc sym_start 3) ->
    parked (Machine (Loc sym_yield 0) rf mm w
                    (idle_trace (rf0 SP) k ++ yield_call))
| park_branch k rf mm w :
    parked (Machine (Loc sym_start 3) rf mm w
                    (idle_trace (rf0 SP) (S k))).

(** States from the entry of [main] on. *)
Inductive entered : machine W -> Prop :=
| ent_main :
    entered (Machine (Loc sym_main 0) (regs_at_main rf0)
                     mm0 w0 (into_main (rf0 SP)))
| ent_parked m :
    parked m -> entered m.

(** All states of a run. *)
Inductive reachable : machine W -> Prop :=
| reach_entry :
    reachable (entry w0 rf0 mm0)
| reach_got :
    reachable (Machine (Loc sym_start 1) (set_reg R9 (rf0 SP) rf0)
                       mm0 w0 [EvWrite R9 (rf0 SP)])
| reach_entered m :
    entered m -> reachable m.

End Reachable.

(** ** Comparing two runs *)

(** Two register files that may differ only on the registers [rs]. *)
Definition agree_off (rs : list reg) (a b : regfile) : Prop :=
  forall r, ~ In r rs -> a r = b r.

Section TwoRuns.

Variable W : Type.
Variable rs : list reg.

Definition same_outcome (o1 o2 : option (W * regfile * memory)) : Prop :=
  match o1, o2 with
  | None, None => True
  | Some (w1, rf1, mm1), Some (w2, rf2, mm2) =>
      w1 = w2 /\ agree_off rs rf1 rf2 /\ mm1 = mm2
  | _, _ => False
  end.

(** [f1] and [f2] do the same whenever they are entered in states that
    differ at most on [rs], and leave states that differ at most on
    [rs].  With [f1 = f2] this says that the routine does not look at
    [rs]. *)
Definition ignores (f1 f2 : extern W) : Prop :=
  forall w rf1 rf2 mm,
    agree_off rs rf1 rf2 -> same_outcome (f1 w rf1 mm) (f2 w rf2 mm).

Definition sim (a b : machine W) : Prop :=
  m_pc a = m_pc b /\ agree_off rs (m_regs a) (m_regs b) /\
  m_mem a = m_mem b /\ m_world a = m_world b /\ m_trace a = m_trace b.

Definition sim_opt (a b : option (machine W)) : Prop :=
  match a, b with
  | Some x, Some y => sim x y
  | None, None => True
  | _, _ => False
  end.

End TwoRuns.

(** The instruction of this file at a code location, if any. *)
Definition instr_at (l : loc) : option instr :=
  match l with
  | Loc f i =>
      match code_of f with
      | Some code => nth_error code i
      | None => None
      end
  end.

(** ** Frame of the register file *)

Section Frame.

Variable W : Type.
Variables main_run yield_run : extern W.

(** What one step from [m] to [m'] may do, by the instruction [m] is
    at.  A [bl g] is the call of [g]: control is handed to [g], one of
    the two callees, with the return address in the link register, and
    nothing else changes.  Any other instruction of the file leaves
    memory, the world and every register but [r9] as they are, and [r9]
    too unless it is the first instruction of [_start].  Inside [main]
    or [yield] the step is theirs, not the trampoline's. *)
Definition own_step_effect (m m' : machine W) : Prop :=
  match instr_at (m_pc m) with
  | Some (Ibl g) =>
      m_pc m' = Loc g 0
      /\ (g = sym_main \/ g = sym_yield)
      /\ m_mem m' = m_mem m /\ m_world m' = m_world m
      /\ forall r, r <> LR -> m_regs m' r = m_regs m r
  | Some _ =>
      m_mem m' = m_mem m /\ m_world m' = m_world m
      /\ (forall r, r <> R9 -> m_regs m' r = m_regs m r)
      /\ (m_pc m <> Loc sym_start 0 -> m_regs m' R9 = m_regs m R9)
  | None => True
  end.

(** Every step of a run from the entry state does no more than that. *)
Definition frame_kept (w0 : W) (rf0 : regfile) (mm0 : memory) : Prop :=
  forall n m m',
    run main_run yield_run n (entry w0 rf0 mm0) = Some m ->
    step main_run yield_run m = Some m' ->
    own_step_effect m m'.

(** The next step of a state of the yield loop.  At [1: bl yield]
    control enters [yield] with the return address of [b 1b] in the link
    register and the call is logged; inside [yield] that return address
    is still in the link register, and when [yield] comes back control
    is at [b 1b] with what [yield] left; at [b 1b] control goes back to
    [1: bl yield] and nothing else changes. *)
Definition loop_step (m : machine W) : Prop :=
  (m_pc m = Loc sym_start 2 \/ m_pc m = Loc sym_yield 0
   \/ m_pc m = Loc sym_start 3)
  /\ (m_pc m = Loc sym_start 2 ->
      step main_run yield_run m
      = Some (Machine (Loc sym_yield 0)
                      (set_reg LR (Vcode (Loc sym_start 3)) (m_regs m))
                      (m_mem m) (m_world m) (m_trace m ++ yield_call)))
  /\ (m_pc m = Loc sym_yield 0 ->
      m_regs m LR = Vcode (Loc sym_start 3)
      /\ forall w' rf' mm',
          yield_run (m_world m) (m_regs m) (m_mem m) = Some (w', rf', mm') ->
          step main_run yield_run m
          = Some (Machine (Loc sym_start 3) rf' mm' w'
                          (m_trace m ++ [EvResume sym_yield])))
  /\ (m_pc m = Loc sym_start 3 ->
      step main_run yield_run m
      = Some (Machine (Loc sym_start 2) (m_regs m) (m_mem m) (m_world m)
                      (m_trace m))).

End Frame.

(** The actions of [k] rounds of the loop. *)
Fixpoint yield_actions (k : nat) : list event :=
  match k with
  | O => []
  | S k' => EvCall sym_yield :: EvResume sym_yield :: yield_actions k'
  end.

(** What the trampoline itself may log: the write of [r9], the link
    register set by a [bl] of [_start], and the calls and returns of its
    two callees.  No memory access is among them. *)
Definition own_event (sp0 : val) (e : event) : Prop :=
  match e with
  | EvWrite r v =>
      (r = R9 /\ v = sp0) \/ (r = LR /\ exists i, v = Vcode (Loc sym_start i))
  | EvCall f | EvResume f => f = sym_main \/ f = sym_yield
  | EvLoad _ | EvStore _ _ => False
  end.

(** ** A concrete process

    Handoff (0x1000, 0x2000, 0x3000), stack pointer 0x2800; the world is
    the number of times the kernel has resumed the process. *)

Definition demo_regs : regfile :=
  fun r =>
    match r with
    | R0 => Vint 4096
    | R1 => Vint 8192
    | R2 => Vint 12288
    | SP => Vint 10240
    | LR => Vint 4294967295
    | _ => Vint 0
    end.

Definition demo_mem : memory := fun _ => Vint 0.

(** [main] returns [v] at once. *)
Definition main_returning (v : Z) : extern nat :=
  fun w rf mm => Some (w, set_reg R0 (Vint v) rf, mm).

(** [main] never returns. *)
Definition main_diverging : extern nat := fun _ _ _ => None.

(** The kernel resumes the process after every yield. *)
Definition yield_resuming : extern nat :=
  fun w rf mm => Some (S w, rf, mm).

(** The same process started with another handoff triple,
    (0x4000, 0x5000, 0x6000). *)
Definition demo_regs' : regfile :=
  fun r =>
    match r with
    | R0 => Vint 16384
    | R1 => Vint 20480
    | R2 => Vint 24576
    | r' => demo_regs r'
    end.

Definition demo_start : machine nat := entry 0 demo_regs demo_mem.

(** The process just inside [main], and just back from it with result
    [v]. *)
Definition demo_in_main : machine nat :=
  Machine (Loc sym_main 0) (regs_at_main demo_regs) demo_mem 0
          (into_main (Vint 10240)).

Definition demo_back (v : Z) : machine nat :=
  Machine (Loc sym_start 2)
          (set_reg R0 (Vint v) (regs_at_main demo_regs)) demo_mem 0
          (idle_trace (Vint 10240) 0).

(** ** Well-behaved callees and the loop as the source describes it *)

Section Callees.

Variable W : Type.

(** An external routine that hands register [r] back as it found it (a
    callee-saved register, the stack pointer). *)
Definition preserves (r : reg) (f : extern W) : Prop :=
  forall w rf mm w' rf' mm',
    f w rf mm = Some (w', rf', mm') -> rf' r = rf r.

Variable yield_run : extern W.

(** Step 3 of the comment in [_start], "Loop on `yield` forever", run for
    [k] rounds from what [main] left: each round enters [yield] with the
    registers of the round before and the link register pointing at
    [b 1b], and goes on with what [yield] leaves.  [None] if one of the
    [k] yields never comes back. *)
Fixpoint yield_loop (k : nat) (s : W * regfile * memory)
  : option (W * regfile * memory) :=
  match k with
  | O => Some s
  | S k' =>
      match yield_loop k' s with
      | Some (w, rf, mm) =>
          yield_run w (set_reg LR (Vcode (Loc sym_start 3)) rf) mm
      | None => None
      end
  end.

End Callees.

(** The four lines of the assembly block of [_start]. *)
Definition start_asm_lines : list asm_line :=
  [ AsmLine None     (Amov R9 SP);
    AsmLine None     (Abl sym_main);
    AsmLine (Some 1) (Abl sym_yield);
    AsmLine None     (Ab_back 1) ].

(** * Proofs *)

(** ** The lowered code *)

Lemma start_code :
  code_of sym_start =
  Some [Imov R9 SP; Ibl sym_main; Ibl sym_yield; Ib 2;
        Ibl sym_main; Ibl sym_yield].
Proof. reflexivity. Qed.

Lemma dummy_code :
  code_of sym_dummy = Some [Ibl sym_main; Ibl sym_yield].
Proof. reflexivity. Qed.

(** ** Counting over the log *)

Lemma idle_trace_S sp0 k :
  idle_trace sp0 (S k)
  = (idle_trace sp0 k ++ yield_call) ++ [EvResume sym_yield].
Proof.
  unfold idle_trace. simpl yield_rounds.
  repeat rewrite <- app_assoc. reflexivity.
Qed.

Lemma calls_to_app f t u :
  calls_to f (t ++ u) = calls_to f t + calls_to f u.
Proof. unfold calls_to. now rewrite filter_app, length_app. Qed.

Lemma writes_to_app r t u :
  writes_to r (t ++ u) = writes_to r t ++ writes_to r u.
Proof. apply filter_app. Qed.

Lemma actions_app t u : actions (t ++ u) = actions t ++ actions u.
Proof. apply filter_app. Qed.

Lemma calls_main_rounds k : calls_to sym_main (yield_rounds k) = 0.
Proof.
  induction k as [|k IH]; [reflexivity|].
  simpl. rewrite calls_to_app, IH. reflexivity.
Qed.

Lemma calls_yield_rounds k : calls_to sym_yield (yield_rounds k) = k.
Proof.
  induction k as [|k IH]; [reflexivity|].
  simpl yield_rounds. rewrite calls_to_app, IH.
  unfold calls_to; simpl. lia.
Qed.

Lemma writes_r9_rounds k : writes_to R9 (yield_rounds k) = [].
Proof.
  induction k as [|k IH]; [reflexivity|].
  simpl. rewrite writes_to_app, IH. reflexivity.
Qed.

Lemma calls_main_idle sp0 k : calls_to sym_main (idle_trace sp0 k) = 1.
Proof.
  unfold idle_trace. rewrite !calls_to_app, calls_main_rounds. reflexivity.
Qed.

Lemma calls_yield_idle sp0 k : calls_to sym_yield (idle_trace sp0 k) = k.
Proof.
  unfold idle_trace. rewrite !calls_to_app, calls_yield_rounds. reflexivity.
Qed.

Lemma writes_r9_idle sp0 k :
  writes_to R9 (idle_trace sp0 k) = [EvWrite R9 sp0].
Proof.
  unfold idle_trace. rewrite !writes_to_app, writes_r9_rounds. reflexivity.
Qed.

(** ** The invariants are closed under execution *)

Section Invariants.

Variable W : Type.
Variables main_run yield_run : extern W.
Variable w0 : W.
Variable rf0 : regfile.
Variable mm0 : memory.

Local Abbreviation step' := (step main_run yield_run).
Local Abbreviation run' := (run main_run yield_run).
Local Abbreviation start := (entry w0 rf0 mm0).
Local Abbreviation parked' := (@parked W rf0).
Local Abbreviation entered' := (entered w0 rf0 mm0).
Local Abbreviation reachable' := (reachable w0 rf0 mm0).

Lemma run_plus a b (m : machine W) :
  run' (a + b) m =
  match run' a m with
  | Some m' => run' b m'
  | None => None
  end.
Proof.
  revert m; induction a as [|a IH]; intro m; simpl; [reflexivity|].
  destruct (step' m); [apply IH | reflexivity].
Qed.

(** A set of states closed under [step] is closed under [run]. *)
Lemma run_closed (P : machine W -> Prop) :
  (forall m, P m -> exists m', step' m = Some m' /\ P m') ->
  forall n m, P m -> exists m', run' n m = Some m' /\ P m'.
Proof.
  intros Hstep n; induction n as [|n IH]; intros m Hm.
  - exists m; split; [reflexivity | assumption].
  - destruct (Hstep m Hm) as (m1 & Hs & Hp).
    simpl. rewrite Hs. now apply IH.
Qed.

Lemma step_parked m :
  parked' m -> exists m', step' m = Some m' /\ parked' m'.
Proof.
  destruct 1.
  - eexists; split; [reflexivity|].
    apply park_yield. reflexivity.
  - unfold step; simpl.
    destruct (yield_run w rf mm) as [[[w' rf'] mm']|].
    + rewrite H.
      exists (Machine (Loc sym_start 3) rf' mm' w'
                      (idle_trace (rf0 SP) (S k))).
      split; [rewrite idle_trace_S; reflexivity | apply park_branch].
    + eexists; split; [reflexivity|]. now apply park_yield.
  - eexists; split; [reflexivity | apply park_loop].
Qed.

Lemma step_entered m :
  entered' m -> exists m', step' m = Some m' /\ entered' m'.
Proof.
  destruct 1 as [|m Hp].
  - unfold step; simpl.
    destruct (main_run w0 (regs_at_main rf0) mm0) as [[[w' rf'] mm']|].
    + eexists; split; [reflexivity|].
      apply ent_parked, (park_loop rf0 0).
    + eexists; split; [reflexivity | apply ent_main].
  - destruct (step_parked Hp) as (m' & Hs & Hp').
    exists m'; split; [assumption | now apply ent_parked].
Qed.

Lemma step_reachable m :
  reachable' m -> exists m', step' m = Some m' /\ reachable' m'.
Proof.
  destruct 1 as [| |m He].
  - eexists; split; [reflexivity | apply reach_got].
  - eexists; split; [reflexivity | apply reach_entered, ent_main].
  - destruct (step_entered He) as (m' & Hs & He').
    exists m'; split; [assumption | now apply reach_entered].
Qed.

Lemma run_start n : exists m, run' n start = Some m /\ reachable' m.
Proof. apply (run_closed _ step_reachable), reach_entry. Qed.

(** After the first instruction the state is known. *)
Lemma run_1 :
  run' 1 start =
  Some (Machine (Loc sym_start 1) (set_reg R9 (rf0 SP) rf0)
                mm0 w0 [EvWrite R9 (rf0 SP)]).
Proof. reflexivity. Qed.

(** After two instructions [main] has just been entered. *)
Lemma run_2 :
  run' 2 start =
  Some (Machine (Loc sym_main 0) (regs_at_main rf0)
                mm0 w0 (into_main (rf0 SP))).
Proof. reflexivity. Qed.

Lemma run_from_1 n :
  exists m, run' (1 + n) start = Some m /\
            (m = Machine (Loc sym_start 1) (set_reg R9 (rf0 SP) rf0)
                         mm0 w0 [EvWrite R9 (rf0 SP)]
             \/ entered' m).
Proof.
  destruct n as [|n].
  - eexists; split; [apply run_1 | now left].
  - change (1 + S n) with (2 + n). rewrite run_plus, run_2.
    destruct (run_closed _ step_entered n _ (ent_main w0 rf0 mm0))
      as (m & Hr & He).
    exists m; split; [assumption | now right].
Qed.

Lemma run_from_2 n :
  exists m, run' (2 + n) start = Some m /\ entered' m.
Proof.
  rewrite run_plus, run_2.
  apply (run_closed _ step_entered), ent_main.
Qed.

End Invariants.

(** ** Facts about the log *)

Ltac own_events :=
  repeat apply Forall_cons; try apply Forall_nil; simpl;
  try (now left); try (now right);
  try (right; split; [reflexivity | eexists; reflexivity]).

Lemma own_into_main sp0 : Forall (own_event sp0) (into_main sp0).
Proof. unfold into_main. own_events. Qed.

Lemma own_yield_call sp0 : Forall (own_event sp0) yield_call.
Proof. unfold yield_call. own_events. Qed.

Lemma own_rounds sp0 k : Forall (own_event sp0) (yield_rounds k).
Proof.
  induction k as [|k IH]; simpl; [constructor|].
  apply Forall_app; split; [assumption|].
  own_events.
Qed.

Lemma own_idle sp0 k : Forall (own_event sp0) (idle_trace sp0 k).
Proof.
  unfold idle_trace.
  apply Forall_app; split; [apply own_into_main|].
  apply Forall_app; split; [|apply own_rounds].
  own_events.
Qed.

Lemma yield_actions_snoc k :
  yield_actions k ++ [EvCall sym_yield; EvResume sym_yield]
  = yield_actions (S k).
Proof.
  induction k as [|k IH]; [reflexivity|].
  simpl in *. now rewrite IH.
Qed.

Lemma actions_rounds k : actions (yield_rounds k) = yield_actions k.
Proof.
  induction k as [|k IH]; [reflexivity|].
  simpl yield_rounds. rewrite actions_app, IH.
  apply yield_actions_snoc.
Qed.

Lemma actions_idle sp0 k :
  actions (idle_trace sp0 k)
  = EvCall sym_main :: EvResume sym_main :: yield_actions k.
Proof.
  unfold idle_trace. rewrite !actions_app, actions_rounds. reflexivity.
Qed.

(** In the actions of the loop, whatever follows a return of [yield]
    is a call of [yield]. *)
Lemma yield_actions_follow k : forall tl pre e post,
  tl = [] \/ tl = [EvCall sym_yield] ->
  yield_actions k ++ tl = pre ++ EvResume sym_yield :: e :: post ->
  e = EvCall sym_yield.
Proof.
  induction k as [|k IH]; intros tl pre e post Htl Heq.
  - simpl in Heq. destruct Htl; subst tl.
    + destruct pre; discriminate.
    + destruct pre as [|p [|q pre]]; discriminate.
  - simpl in Heq. destruct pre as [|p [|q pre]].
    + discriminate.
    + simpl in Heq. injection Heq as _ Hrest.
      destruct k; simpl in Hrest.
      * destruct Htl; subst tl; [discriminate|].
        now injection Hrest as <- _.
      * now injection Hrest as <- _.
    + simpl in Heq. injection Heq as _ _ Hrest.
      eapply IH; eassumption.
Qed.

Lemma idle_actions_follow sp0 k tl pre e post :
  tl = [] \/ tl = [EvCall sym_yield] ->
  actions (idle_trace sp0 k) ++ tl = pre ++ EvResume sym_yield :: e :: post ->
  e = EvCall sym_yield.
Proof.
  intros Htl Heq. rewrite actions_idle in Heq.
  destruct pre as [|p [|q pre]]; simpl in Heq.
  - discriminate.
  - injection Heq as _ Hrest. discriminate.
  - injection Heq as _ _ Hrest.
    eapply yield_actions_follow; eassumption.
Qed.

(** ** Facts about the three kinds of state *)

Section Facts.

Variable W : Type.
Variable w0 : W.
Variable rf0 : regfile.
Variable mm0 : memory.

Lemma parked_idle (m : machine W) :
  parked rf0 m -> phase_of (m_pc m) = Some Idle.
Proof. destruct 1; reflexivity. Qed.

Lemma parked_trace (m : machine W) :
  parked rf0 m ->
  exists k tl, m_trace m = idle_trace (rf0 SP) k ++ tl
               /\ (tl = [] \/ tl = yield_call).
Proof.
  destruct 1.
  - exists k, []; split; [now rewrite app_nil_r | now left].
  - exists k, yield_call; split; [reflexivity | now right].
  - exists (S k), []; split; [now rewrite app_nil_r | now left].
Qed.

Lemma entered_phase (m : machine W) :
  entered w0 rf0 mm0 m ->
  phase_of (m_pc m) = Some Running \/ phase_of (m_pc m) = Some Idle.
Proof.
  destruct 1 as [|m Hp]; [now left | right; now apply parked_idle].
Qed.

Lemma reachable_phase (m : machine W) :
  reachable w0 rf0 mm0 m -> phase_of (m_pc m) <> None.
Proof.
  destruct 1 as [| |m He]; try discriminate.
  destruct (entered_phase He) as [E|E]; rewrite E; discriminate.
Qed.

Lemma reachable_idle_parked (m : machine W) :
  reachable w0 rf0 mm0 m ->
  phase_of (m_pc m) = Some Idle -> parked rf0 m.
Proof.
  destruct 1 as [| |m He]; try discriminate.
  destruct He; [discriminate | trivial].
Qed.

Lemma parked_calls_main (m : machine W) :
  parked rf0 m -> calls_to sym_main (m_trace m) = 1.
Proof.
  intros Hp. destruct (parked_trace Hp) as (k & tl & -> & [->| ->]);
    rewrite calls_to_app, calls_main_idle; reflexivity.
Qed.

Lemma entered_calls_main (m : machine W) :
  entered w0 rf0 mm0 m -> calls_to sym_main (m_trace m) = 1.
Proof.
  destruct 1 as [|m Hp]; [reflexivity | now apply parked_calls_main].
Qed.

Lemma parked_writes_r9 (m : machine W) :
  parked rf0 m -> writes_to R9 (m_trace m) = [EvWrite R9 (rf0 SP)].
Proof.
  intros Hp. destruct (parked_trace Hp) as (k & tl & -> & [->| ->]);
    rewrite writes_to_app, writes_r9_idle; reflexivity.
Qed.

Lemma entered_writes_r9 (m : machine W) :
  entered w0 rf0 mm0 m -> writes_to R9 (m_trace m) = [EvWrite R9 (rf0 SP)].
Proof.
  destruct 1 as [|m Hp]; [reflexivity | now apply parked_writes_r9].
Qed.

Lemma parked_resumed (m : machine W) :
  parked rf0 m -> In (EvResume sym_main) (m_trace m).
Proof.
  intros Hp. destruct (parked_trace Hp) as (k & tl & -> & _).
  apply in_or_app; left. unfold idle_trace.
  apply in_or_app; right. now left.
Qed.

Lemma entered_prefix (m : machine W) :
  entered w0 rf0 mm0 m ->
  exists rest, m_trace m = into_main (rf0 SP) ++ rest.
Proof.
  destruct 1 as [|m Hp].
  - exists []; reflexivity.
  - destruct (parked_trace Hp) as (k & tl & -> & _).
    unfold idle_trace. rewrite <- app_assoc. eauto.
Qed.

Lemma reachable_own (m : machine W) :
  reachable w0 rf0 mm0 m -> Forall (own_event (rf0 SP)) (m_trace m).
Proof.
  destruct 1 as [| |m He]; [| |destruct He as [|m Hp]].
  - constructor.
  - simpl. own_events.
  - apply own_into_main.
  - destruct (parked_trace Hp) as (k & tl & -> & Htl).
    apply Forall_app; split; [apply own_idle|].
    destruct Htl; subst tl; [constructor | apply own_yield_call].
Qed.

Lemma parked_follow (m : machine W) pre e post :
  parked rf0 m ->
  actions (m_trace m) = pre ++ EvResume sym_yield :: e :: post ->
  e = EvCall sym_yield.
Proof.
  intros Hp. destruct (parked_trace Hp) as (k & tl & -> & Htl).
  rewrite actions_app.
  apply idle_actions_follow.
  destruct Htl; subst tl; [now left | now right].
Qed.

End Facts.

(** ** Runs from the entry state *)

Section Runs.

Variable W : Type.
Variables main_run yield_run : extern W.

Local Abbreviation step' := (step main_run yield_run).
Local Abbreviation run' := (run main_run yield_run).

(** The log only grows. *)
Lemma step_extends (m m' : machine W) :
  step' m = Some m' -> exists t, m_trace m' = m_trace m ++ t.
Proof.
  unfold step. destruct (m_pc m) as [f i].
  destruct (code_of f) as [code|].
  - destruct (nth_error code i) as [ins|]; [|discriminate].
    destruct ins; simpl.
    + intros [= <-]; simpl; eauto.
    + intros [= <-]; simpl; eauto.
    + intros [= <-]; simpl. exists []. now rewrite app_nil_r.
    + destruct (m_regs m SP); [|discriminate].
      intros [= <-]; simpl; eauto.
    + destruct (m_regs m SP) as [a|]; [|discriminate].
      destruct (m_mem m a); [discriminate|].
      intros [= <-]; simpl; eauto.
  - destruct (extern_of main_run yield_run f (m_world m) (m_regs m) (m_mem m))
      as [[[w' rf'] mm']|].
    + destruct (m_regs m LR); [discriminate|].
      intros [= <-]; simpl; eauto.
    + intros [= <-]. exists []. now rewrite app_nil_r.
Qed.

Lemma run_extends n : forall (m m' : machine W),
  run' n m = Some m' -> exists t, m_trace m' = m_trace m ++ t.
Proof.
  induction n as [|n IH]; intros m m'; simpl.
  - intros [= <-]. exists []. now rewrite app_nil_r.
  - destruct (step' m) as [m1|] eqn:Hs; [|discriminate].
    intros Hr. destruct (step_extends _ Hs) as (t1 & E1).
    destruct (IH _ _ Hr) as (t2 & E2).
    exists (t1 ++ t2). now rewrite E2, E1, app_assoc.
Qed.

Variable w0 : W.
Variable rf0 : regfile.
Variable mm0 : memory.

Local Abbreviation start := (entry w0 rf0 mm0).
Local Abbreviation in_main :=
  (Machine (Loc sym_main 0) (regs_at_main rf0) mm0 w0 (into_main (rf0 SP))).

(** If [main] comes back, the third step is its return to [1:]. *)
Lemma run_3 w1 rf1 mm1 :
  main_run w0 (regs_at_main rf0) mm0 = Some (w1, rf1, mm1) ->
  run' 3 start =
  Some (Machine (Loc sym_start 2) rf1 mm1 w1 (idle_trace (rf0 SP) 0)).
Proof.
  intros E. change 3 with (2 + 1).
  rewrite run_plus, run_2. simpl. unfold step; simpl.
  now rewrite E.
Qed.

(** ... and the fourth is the first [bl yield]. *)
Lemma run_4 w1 rf1 mm1 :
  main_run w0 (regs_at_main rf0) mm0 = Some (w1, rf1, mm1) ->
  run' 4 start =
  Some (Machine (Loc sym_yield 0)
                (set_reg LR (Vcode (Loc sym_start 3)) rf1) mm1 w1
                (idle_trace (rf0 SP) 0 ++ yield_call)).
Proof.
  intros E. change 4 with (3 + 1).
  rewrite run_plus, (run_3 E). reflexivity.
Qed.

(** If [main] does not come back, the machine stays inside it. *)
Lemma run_in_main n :
  main_run w0 (regs_at_main rf0) mm0 = None ->
  run' n in_main = Some in_main.
Proof.
  intros E. induction n as [|n IH]; [reflexivity|].
  simpl. unfold step at 1; simpl. now rewrite E.
Qed.

Lemma run_diverging n :
  main_run w0 (regs_at_main rf0) mm0 = None ->
  run' (2 + n) start = Some in_main.
Proof.
  intros E. rewrite run_plus, run_2. now apply run_in_main.
Qed.

Lemma run_parked_from_3 w1 rf1 mm1 n :
  main_run w0 (regs_at_main rf0) mm0 = Some (w1, rf1, mm1) ->
  exists m, run' (3 + n) start = Some m /\ parked rf0 m.
Proof.
  intros E. rewrite run_plus, (run_3 E).
  apply (run_closed main_run yield_run _
           (step_parked main_run yield_run (rf0:=rf0))).
  apply park_loop.
Qed.

(** Every state of a run is one of the invariant. *)
Lemma run_is_reachable n m :
  run' n start = Some m -> reachable w0 rf0 mm0 m.
Proof.
  intros Hr. destruct (run_start main_run yield_run w0 rf0 mm0 n)
    as (m' & Hr' & Hm').
  rewrite Hr in Hr'. now injection Hr' as ->.
Qed.

End Runs.

(** ** More facts used by the main theorems *)

Lemma own_no_mem sp0 t :
  Forall (own_event sp0) t -> filter is_mem_access t = [].
Proof.
  induction 1 as [|e t He _ IH]; [reflexivity|].
  simpl. destruct e; simpl in *; try assumption; contradiction.
Qed.

Lemma own_no_dummy sp0 t :
  Forall (own_event sp0) t ->
  calls_to sym_dummy t = 0 /\ calls_to sym_start t = 0.
Proof.
  induction 1 as [|e t He _ IH]; [split; reflexivity|].
  unfold calls_to in *. destruct e; simpl in *; try assumption.
  destruct He; subst f; simpl; assumption.
Qed.

Section MoreFacts.

Variable W : Type.
Variable w0 : W.
Variable rf0 : regfile.
Variable mm0 : memory.

Lemma parked_after_main (m : machine W) :
  parked rf0 m ->
  exists rest,
    m_trace m = into_main (rf0 SP) ++ EvResume sym_main :: rest
    /\ calls_to sym_main rest = 0.
Proof.
  intros Hp. destruct (parked_trace Hp) as (k & tl & -> & Htl).
  exists (yield_rounds k ++ tl). split.
  - unfold idle_trace. now rewrite <- !app_assoc.
  - rewrite calls_to_app, calls_main_rounds.
    destruct Htl; subst tl; reflexivity.
Qed.

Lemma reachable_pc (m : machine W) :
  reachable w0 rf0 mm0 m ->
  In (m_pc m) [Loc sym_start 0; Loc sym_start 1; Loc sym_main 0;
               Loc sym_start 2; Loc sym_yield 0; Loc sym_start 3].
Proof.
  destruct 1 as [| |m He]; [| |destruct He as [|m Hp]];
    [| | |destruct Hp]; simpl; tauto.
Qed.

Lemma reachable_calls_main (m : machine W) :
  reachable w0 rf0 mm0 m -> calls_to sym_main (m_trace m) <= 1.
Proof.
  destruct 1 as [| |m He].
  - simpl. unfold calls_to; simpl; lia.
  - simpl. unfold calls_to; simpl; lia.
  - rewrite (entered_calls_main He). lia.
Qed.

Lemma reachable_writes_r9 (m : machine W) :
  reachable w0 rf0 mm0 m -> length (writes_to R9 (m_trace m)) <= 1.
Proof.
  destruct 1 as [| |m He].
  - simpl; lia.
  - simpl; lia.
  - rewrite (entered_writes_r9 He). simpl; lia.
Qed.

Lemma reachable_yield_after_main (m : machine W) :
  reachable w0 rf0 mm0 m ->
  calls_to sym_yield (m_trace m) = 0 \/ In (EvResume sym_main) (m_trace m).
Proof.
  destruct 1 as [| |m He]; [now left | now left |].
  destruct He as [|m Hp]; [now left | right; now apply (parked_resumed Hp)].
Qed.

Lemma reachable_r9_first (m : machine W) pre post :
  reachable w0 rf0 mm0 m ->
  m_trace m = pre ++ EvCall sym_main :: post ->
  In (EvWrite R9 (rf0 SP)) pre.
Proof.
  destruct 1 as [| |m He]; simpl.
  - destruct pre; discriminate.
  - destruct pre as [|a [|b pre]]; discriminate.
  - destruct (entered_prefix He) as (rest & ->).
    destruct pre as [|a [|b pre]]; simpl; intros E.
    + discriminate.
    + injection E as _ E; discriminate.
    + injection E as <- _. now left.
Qed.

Lemma reachable_r9_in_main (m : machine W) i :
  reachable w0 rf0 mm0 m ->
  m_pc m = Loc sym_main i -> m_regs m R9 = rf0 SP.
Proof.
  destruct 1 as [| |m He]; [discriminate | discriminate |].
  destruct He as [|m Hp]; [reflexivity | destruct Hp; discriminate].
Qed.

End MoreFacts.

(** ** Progress of the loop when the kernel resumes the process *)

Section Progress.

Variable W : Type.
Variables main_run yield_run : extern W.
Variable rf0 : regfile.

Local Abbreviation run' := (run main_run yield_run).

Hypothesis resumes : forall w rf mm, yield_run w rf mm <> None.

(** From any state of the loop, at most three steps later control is
    inside [yield] and one more call of [yield] has been logged. *)
Lemma parked_next_yield (m : machine W) :
  parked rf0 m ->
  exists j m',
    run' j m = Some m' /\ parked rf0 m'
    /\ m_pc m' = Loc sym_yield 0
    /\ calls_to sym_yield (m_trace m') = S (calls_to sym_yield (m_trace m)).
Proof.
  destruct 1 as [k rf mm w|k rf mm w Hlr|k rf mm w].
  - exists 1. eexists. split; [reflexivity|]. split; [|split].
    + apply park_yield. reflexivity.
    + reflexivity.
    + cbn [m_trace]. rewrite calls_to_app, calls_yield_idle.
      unfold calls_to; simpl; lia.
  - destruct (yield_run w rf mm) as [[[w' rf'] mm']|] eqn:E;
      [|now destruct (resumes E)].
    exists 3.
    exists (Machine (Loc sym_yield 0)
                    (set_reg LR (Vcode (Loc sym_start 3)) rf') mm' w'
                    (idle_trace (rf0 SP) (S k) ++ yield_call)).
    split; [|split; [|split]].
    + change (run' 3 ?x) with
        (match step main_run yield_run x with
         | Some m1 => run' 2 m1
         | None => None
         end).
      unfold step at 1. cbn [m_pc code_of extern_of m_world m_regs m_mem].
      rewrite E, Hlr. rewrite idle_trace_S. reflexivity.
    + apply park_yield. reflexivity.
    + reflexivity.
    + cbn [m_trace]. rewrite !calls_to_app, !calls_yield_idle.
      unfold calls_to; simpl; lia.
  - exists 2. eexists. split; [reflexivity|]. split; [|split].
    + apply park_yield. reflexivity.
    + reflexivity.
    + cbn [m_trace]. rewrite calls_to_app, !calls_yield_idle.
      unfold calls_to; simpl; lia.
Qed.

Lemma parked_unbounded (N : nat) : forall m : machine W,
  parked rf0 m ->
  exists j m',
    run' j m = Some m' /\ parked rf0 m'
    /\ m_pc m' = Loc sym_yield 0
    /\ N <= calls_to sym_yield (m_trace m').
Proof.
  induction N as [|N IH]; intros m Hp.
  - destruct (parked_next_yield Hp) as (j & m' & Hr & Hp' & Hpc & Hc).
    exists j, m'. repeat split; try assumption. lia.
  - destruct (IH m Hp) as (j1 & m1 & Hr1 & Hp1 & _ & Hc1).
    destruct (parked_next_yield Hp1) as (j2 & m2 & Hr2 & Hp2 & Hpc2 & Hc2).
    exists (j1 + j2), m2.
    split; [|split; [assumption | split; [assumption | lia]]].
    now rewrite run_plus, Hr1.
Qed.

(** The next step of a state of the loop is the loop's. *)
Lemma parked_loop_step (m : machine W) :
  parked rf0 m -> loop_step main_run yield_run m.
Proof.
  destruct 1 as [k rf mm w|k rf mm w Hlr|k rf mm w]; unfold loop_step;
    cbn [m_pc m_regs m_mem m_world m_trace].
  - split; [now left|]. split; [reflexivity|].
    split; intros [=].
  - split; [right; now left|]. split; [intros [=]|].
    split; [|intros [=]].
    intros _. split; [assumption|].
    intros w' rf' mm' E. unfold step.
    cbn [m_pc code_of extern_of m_world m_regs m_mem m_trace].
    now rewrite E, Hlr.
  - split; [right; now right|]. split; [intros [=]|].
    split; [intros [=]|]. reflexivity.
Qed.

End Progress.

(** ** What a step of the trampoline's own code changes *)

Lemma set_reg_other r v rf r' : r' <> r -> set_reg r v rf r' = rf r'.
Proof.
  intros Hne. unfold set_reg. now destruct (reg_eq_dec r' r).
Qed.

Section OwnSteps.

Variable W : Type.
Variables main_run yield_run : extern W.
Variable w0 : W.
Variable rf0 : regfile.
Variable mm0 : memory.

Lemma reachable_step_effect (m m' : machine W) :
  reachable w0 rf0 mm0 m ->
  step main_run yield_run m = Some m' ->
  own_step_effect m m'.
Proof.
  destruct 1 as [| |m He];
    [| |destruct He as [|m Hp]; [|destruct Hp]];
    intros Hs; unfold own_step_effect;
    cbn [m_pc instr_at code_of]; try rewrite start_code;
    cbn [nth_error]; try exact I;
    injection Hs as <-; cbn [m_pc m_mem m_world m_regs].
  - split; [reflexivity|]. split; [reflexivity|]. split.
    + intros r Hr. now apply set_reg_other.
    + intros H; now destruct H.
  - split; [reflexivity|]. split; [now left|].
    split; [reflexivity|]. split; [reflexivity|].
    intros r Hr. now apply set_reg_other.
  - split; [reflexivity|]. split; [now right|].
    split; [reflexivity|]. split; [reflexivity|].
    intros r Hr. now apply set_reg_other.
  - repeat split.
Qed.

End OwnSteps.

(** * The claims *)

Section Claims.

Variable W : Type.
Variables main_run yield_run : extern W.

Local Abbreviation run' := (run main_run yield_run).

(** C1. From any entry state, whatever the three handoff addresses in
    [r0]-[r2] are, the run never faults and control is at every step
    inside the assembly block of [_start], inside [main] or inside
    [yield], never back with the caller; and either control is inside
    [main] from the second step on for ever, or it is in the yield loop
    from the third step on for ever. *)
Theorem start_never_returns (w0 : W) (rf0 : regfile) (mm0 : memory) :
  (forall n, exists m,
      run' n (entry w0 rf0 mm0) = Some m /\ phase_of (m_pc m) <> None)
  /\ ((forall n, exists m,
          run' (2 + n) (entry w0 rf0 mm0) = Some m
          /\ phase_of (m_pc m) = Some Running)
      \/ (forall n, exists m,
             run' (3 + n) (entry w0 rf0 mm0) = Some m
             /\ phase_of (m_pc m) = Some Idle)).
Proof.
  split.
  - intros n.
    destruct (run_start main_run yield_run w0 rf0 mm0 n) as (m & Hr & Hm).
    exists m; split; [assumption|]. now apply (reachable_phase Hm).
  - destruct (main_run w0 (regs_at_main rf0) mm0) as [[[w1 rf1] mm1]|] eqn:E.
    + right; intros n.
      destruct (run_parked_from_3 main_run yield_run w0 rf0 mm0 n E)
      as (m & Hr & Hp).
      exists m; split; [assumption | now apply (parked_idle Hp)].
    + left; intros n. eexists; split.
      * apply (run_diverging main_run yield_run w0 rf0 mm0 n E).
      * reflexivity.
Qed.

(** C8. If [main] never comes back, the run never reaches the yield
    loop and no call of [yield] is ever logged by the trampoline. *)
Theorem diverging_main_never_yields
        (w0 : W) (rf0 : regfile) (mm0 : memory) :
  main_run w0 (regs_at_main rf0) mm0 = None ->
  forall n, exists m,
    run' n (entry w0 rf0 mm0) = Some m
    /\ phase_of (m_pc m) <> Some Idle
    /\ calls_to sym_yield (m_trace m) = 0.
Proof.
  intros E [|[|n]].
  - eexists; split; [reflexivity|]. split; [discriminate | reflexivity].
  - eexists; split; [reflexivity|]. split; [discriminate | reflexivity].
  - eexists; split;
      [apply (run_diverging main_run yield_run w0 rf0 mm0 n E)|].
    split; [discriminate | reflexivity].
Qed.

(** C4. If [main] comes back, with whatever registers, memory and
    world, then the third step is its return to [1: bl yield] and the
    fourth step is that call: control is inside [yield], entered with
    what [main] left and the return address of [b 1b] in the link
    register.  From the return on control stays in the yield loop, never
    inside [main] again; the log after the return of [main] holds no
    further call of [main], and from the fourth step on it holds a call
    of [yield]. *)
Theorem returning_main_parks
        (w0 : W) (rf0 : regfile) (mm0 : memory)
        (w1 : W) (rf1 : regfile) (mm1 : memory) :
  main_run w0 (regs_at_main rf0) mm0 = Some (w1, rf1, mm1) ->
  run' 3 (entry w0 rf0 mm0)
  = Some (Machine (Loc sym_start 2) rf1 mm1 w1 (idle_trace (rf0 SP) 0))
  /\ run' 4 (entry w0 rf0 mm0)
     = Some (Machine (Loc sym_yield 0)
                     (set_reg LR (Vcode (Loc sym_start 3)) rf1) mm1 w1
                     (idle_trace (rf0 SP) 0 ++ yield_call))
  /\ (forall n, exists m,
         run' (3 + n) (entry w0 rf0 mm0) = Some m
         /\ phase_of (m_pc m) = Some Idle
         /\ exists rest,
             m_trace m = into_main (rf0 SP) ++ EvResume sym_main :: rest
             /\ calls_to sym_main rest = 0)
  /\ (forall n, exists m,
         run' (4 + n) (entry w0 rf0 mm0) = Some m
         /\ 1 <= calls_to sym_yield (m_trace m)).
Proof.
  intros E.
  split; [apply (run_3 main_run yield_run w0 rf0 mm0 E)|].
  split; [apply (run_4 main_run yield_run w0 rf0 mm0 E)|].
  split; intros n.
  - destruct (run_parked_from_3 main_run yield_run w0 rf0 mm0 n E)
      as (m & Hr & Hp).
    exists m; split; [assumption|].
    split; [now apply (parked_idle Hp) | now apply parked_after_main].
  - change (4 + n) with (3 + S n).
    destruct (run_parked_from_3 main_run yield_run w0 rf0 mm0 (S n) E)
      as (m & Hr & _).
    exists m; split; [assumption|].
    change (3 + S n) with (4 + n) in Hr.
    rewrite run_plus, (run_4 main_run yield_run w0 rf0 mm0 E) in Hr.
    destruct (run_extends main_run yield_run n _ Hr) as (t & ->).
    cbn [m_trace].
    rewrite !calls_to_app, calls_yield_idle.
    change (calls_to sym_yield yield_call) with 1. lia.
Qed.

(** C5. The first instruction copies the stack pointer into [r9]: after
    one step [r9] holds the stack pointer the process was started
    with, which is itself unchanged, and from then on that write is the
    only write to [r9] in the log. *)
Theorem r9_is_initial_sp (w0 : W) (rf0 : regfile) (mm0 : memory) :
  (exists m,
      run' 1 (entry w0 rf0 mm0) = Some m
      /\ m_regs m R9 = rf0 SP
      /\ m_regs m SP = rf0 SP
      /\ m_trace m = [EvWrite R9 (rf0 SP)])
  /\ forall n, exists m,
      run' (1 + n) (entry w0 rf0 mm0) = Some m
      /\ writes_to R9 (m_trace m) = [EvWrite R9 (rf0 SP)].
Proof.
  split.
  - eexists; split; [reflexivity|]. repeat split.
  - intros n.
    destruct (run_from_1 main_run yield_run w0 rf0 mm0 n)
      as (m & Hr & [->|He]);
      (eexists; split; [exact Hr|]).
    + reflexivity.
    + now apply (entered_writes_r9 He).
Qed.

(** C3. In every state of a run, a call of [main] in the log is
    preceded by the write of the initial stack pointer to [r9], and
    whenever control is inside [main], [r9] holds that value. *)
Theorem r9_written_before_main
        (w0 : W) (rf0 : regfile) (mm0 : memory) (n : nat) (m : machine W) :
  run' n (entry w0 rf0 mm0) = Some m ->
  (forall pre post,
      m_trace m = pre ++ EvCall sym_main :: post ->
      In (EvWrite R9 (rf0 SP)) pre)
  /\ (forall i, m_pc m = Loc sym_main i -> m_regs m R9 = rf0 SP).
Proof.
  intros Hr.
  pose proof (run_is_reachable main_run yield_run w0 rf0 mm0 n Hr) as Hm.
  split.
  - intros pre post Ht. eapply reachable_r9_first; eassumption.
  - intros i Hpc. eapply reachable_r9_in_main; eassumption.
Qed.

(** C2. Once a run is in the yield loop it stays there.  Every later
    state is at [1: bl yield], inside [yield] or at [b 1b], and its next
    step is the loop's: from [1: bl yield] control enters [yield]; when
    [yield] comes back control is at [b 1b]; from [b 1b] control is back
    at [1: bl yield].  In the log whatever action follows a return of
    [yield] is a call of [yield].  A state that [yield] has just
    returned to is, two steps later, inside [yield] again with nothing
    but that call added to the log.  And if the kernel resumes the
    process after every yield, control is inside [yield] again and
    again, with more calls of [yield] made than any bound. *)
Theorem yield_loop_is_absorbing
        (w0 : W) (rf0 : regfile) (mm0 : memory) (n : nat) (m : machine W) :
  run' n (entry w0 rf0 mm0) = Some m ->
  phase_of (m_pc m) = Some Idle ->
  (forall k, exists m',
      run' (n + k) (entry w0 rf0 mm0) = Some m'
      /\ phase_of (m_pc m') = Some Idle
      /\ loop_step main_run yield_run m'
      /\ forall pre e post,
          actions (m_trace m') = pre ++ EvResume sym_yield :: e :: post ->
          e = EvCall sym_yield)
  /\ (m_pc m = Loc sym_start 3 ->
      exists m2,
        run' (n + 2) (entry w0 rf0 mm0) = Some m2
        /\ m_pc m2 = Loc sym_yield 0
        /\ m_trace m2 = m_trace m ++ yield_call)
  /\ ((forall w rf mm, yield_run w rf mm <> None) ->
      forall N, exists k m',
        run' (n + k) (entry w0 rf0 mm0) = Some m'
        /\ m_pc m' = Loc sym_yield 0
        /\ N <= calls_to sym_yield (m_trace m')).
Proof.
  intros Hr Hidle.
  pose proof (run_is_reachable main_run yield_run w0 rf0 mm0 n Hr) as Hm.
  pose proof (reachable_idle_parked Hm Hidle) as Hp.
  split; [|split].
  - intros k. rewrite run_plus, Hr.
    destruct (run_closed main_run yield_run _
                (step_parked main_run yield_run (rf0:=rf0)) k _ Hp)
      as (m' & Hr' & Hp').
    exists m'. split; [assumption|]. split; [now apply (parked_idle Hp')|].
    split; [apply (@parked_loop_step _ main_run yield_run rf0 _ Hp')|].
    intros pre e post Heq. eapply parked_follow; eassumption.
  - intros Hpc. rewrite run_plus, Hr.
    destruct Hp; try discriminate.
    eexists. split; [reflexivity|]. split; reflexivity.
  - intros Hres N.
    destruct (@parked_unbounded _ main_run yield_run rf0 Hres N m Hp)
      as (k & m' & Hr' & _ & Hpc & Hc).
    exists k, m'. split; [|split; assumption].
    now rewrite run_plus, Hr.
Qed.

(** C10. No state of a run is at one of the two C-level calls that
    follow the assembly block in [_start] (instructions 4 and 5) or
    anywhere in [lto_asm_references_dummy_function]; the trampoline
    logs no call of that function; from the second step on exactly one
    call of [main] is in the log, although the code of the file holds
    three [bl main]: two in [_start] and one in the dummy function. *)
Theorem lto_references_never_run (w0 : W) (rf0 : regfile) (mm0 : memory) :
  (forall n, exists m,
      run' n (entry w0 rf0 mm0) = Some m
      /\ (forall i, m_pc m <> Loc sym_start (4 + i))
      /\ (forall i, m_pc m <> Loc sym_dummy i)
      /\ calls_to sym_dummy (m_trace m) = 0
      /\ calls_to sym_main (m_trace m) <= 1)
  /\ (forall n, exists m,
         run' (2 + n) (entry w0 rf0 mm0) = Some m
         /\ calls_to sym_main (m_trace m) = 1)
  /\ (exists cs cd,
         code_of sym_start = Some cs /\ code_of sym_dummy = Some cd
         /\ nth_error cs 4 = Some (Ibl sym_main)
         /\ nth_error cs 5 = Some (Ibl sym_yield)
         /\ length cs = 6
         /\ count_bl sym_main cs = 2 /\ count_bl sym_main cd = 1).
Proof.
  split; [|split].
  - intros n.
    destruct (run_start main_run yield_run w0 rf0 mm0 n) as (m & Hr & Hm).
    exists m. split; [assumption|].
    pose proof (reachable_pc Hm) as Hpc.
    repeat split.
    + intros i E. rewrite E in Hpc. simpl in Hpc.
      repeat (destruct Hpc as [Hpc|Hpc]; [discriminate|]). contradiction.
    + intros i E. rewrite E in Hpc. simpl in Hpc.
      repeat (destruct Hpc as [Hpc|Hpc]; [discriminate|]). contradiction.
    + apply (own_no_dummy (reachable_own Hm)).
    + apply (reachable_calls_main Hm).
  - intros n.
    destruct (run_from_2 main_run yield_run w0 rf0 mm0 n) as (m & Hr & He).
    exists m. split; [assumption | now apply (entered_calls_main He)].
  - do 2 eexists. split; [apply start_code|]. split; [apply dummy_code|].
    repeat split.
Qed.

(** C7. Every step of a run does no more than this.  The first
    instruction writes [r9]; no later instruction of the trampoline
    does, and no instruction of it that is not a call changes any other
    register, memory or the world.  A [bl] is the call itself: control
    goes to [main] or [yield] with the return address in the link
    register, and nothing else changes.  In the log [r9] is written at
    most once, with the initial stack pointer; there is no memory
    access; and a call of [yield] appears only after [main] has come
    back. *)
Theorem trampoline_frame (w0 : W) (rf0 : regfile) (mm0 : memory) :
  frame_kept main_run yield_run w0 rf0 mm0
  /\ forall n, exists m,
      run' n (entry w0 rf0 mm0) = Some m
      /\ Forall (own_event (rf0 SP)) (m_trace m)
      /\ length (writes_to R9 (m_trace m)) <= 1
      /\ filter is_mem_access (m_trace m) = []
      /\ (calls_to sym_yield (m_trace m) = 0
          \/ In (EvResume sym_main) (m_trace m)).
Proof.
  split.
  - intros n m m' Hr Hs.
    pose proof (run_is_reachable main_run yield_run w0 rf0 mm0 n Hr) as Hm.
    eapply reachable_step_effect; eassumption.
  - intros n.
    destruct (run_start main_run yield_run w0 rf0 mm0 n) as (m & Hr & Hm).
    exists m. split; [assumption|].
    split; [apply (reachable_own Hm)|].
    split; [apply (reachable_writes_r9 Hm)|].
    split; [apply (own_no_mem (reachable_own Hm))|].
    apply (reachable_yield_after_main Hm).
Qed.

End Claims.

(** ** Two runs side by side *)

Lemma agree_set rs r v a b :
  agree_off rs a b -> agree_off rs (set_reg r v a) (set_reg r v b).
Proof.
  intros H r' Hr'. unfold set_reg.
  destruct (reg_eq_dec r' r); [reflexivity | now apply H].
Qed.

(** The only [mov] in the code of the file is [mov r9, sp]. *)
Lemma mov_reads_sp f code i rd rs' :
  code_of f = Some code -> nth_error code i = Some (Imov rd rs') ->
  rd = R9 /\ rs' = SP.
Proof.
  intros Hc Hn.
  destruct f; [rewrite start_code in Hc | discriminate | discriminate
               | rewrite dummy_code in Hc];
    injection Hc as <-;
    do 6 (try destruct i as [|i]); simpl in Hn;
    try discriminate;
    try (injection Hn as <- <-; now split);
    destruct i; discriminate.
Qed.

Ltac sim_done :=
  repeat split; simpl;
  try assumption; try congruence; try (now apply agree_set).

Section Simulation.

Variable W : Type.
Variable rs : list reg.
Variables main1 yield1 main2 yield2 : extern W.

Hypothesis sp_kept : ~ In SP rs.
Hypothesis lr_kept : ~ In LR rs.
Hypothesis main_sim : ignores rs main1 main2.
Hypothesis yield_sim : ignores rs yield1 yield2.

Lemma extern_sim f :
  ignores rs (extern_of main1 yield1 f) (extern_of main2 yield2 f).
Proof.
  destruct f; simpl; try assumption; intros w rf1 rf2 mm _; exact I.
Qed.

Lemma exec_sim f i ins (a b : machine W) :
  (forall rd rs', ins = Imov rd rs' -> ~ In rs' rs) ->
  sim rs a b -> sim_opt rs (exec f i ins a) (exec f i ins b).
Proof.
  intros Hmov (Hpc & Hreg & Hmem & Hw & Ht).
  pose proof (Hreg SP sp_kept) as Hsp.
  pose proof (Hreg LR lr_kept) as Hlr.
  destruct ins; simpl.
  - rewrite <- (Hreg rs0 (Hmov _ _ eq_refl)).
    sim_done.
  - sim_done.
  - sim_done.
  - rewrite <- Hsp, <- Hlr. destruct (m_regs a SP); simpl; [|exact I].
    sim_done.
  - rewrite <- Hsp, <- Hmem. destruct (m_regs a SP) as [x|]; simpl; [|exact I].
    destruct (m_mem a x); simpl; [exact I|].
    sim_done.
Qed.

Lemma step_sim (a b : machine W) :
  sim rs a b ->
  sim_opt rs (step main1 yield1 a) (step main2 yield2 b).
Proof.
  intros Hs. pose proof Hs as (Hpc & Hreg & Hmem & Hw & Ht).
  unfold step. rewrite <- Hpc. destruct (m_pc a) as [f i].
  destruct (code_of f) as [code|] eqn:Hcode.
  - destruct (nth_error code i) as [ins|] eqn:Hnth; [|exact I].
    apply exec_sim; [|assumption].
    intros rd rs' ->.
    destruct (mov_reads_sp _ _ Hcode Hnth) as (_ & ->). assumption.
  - rewrite <- Hw, <- Hmem.
    pose proof (extern_sim f (m_world a) (m_mem a) Hreg) as Ho.
    destruct (extern_of main1 yield1 f (m_world a) (m_regs a) (m_mem a))
      as [[[w1 r1] mm1]|];
      destruct (extern_of main2 yield2 f (m_world a) (m_regs b) (m_mem a))
      as [[[w2 r2] mm2]|];
      simpl in Ho; try contradiction.
    + destruct Ho as (-> & Hr & ->).
      rewrite <- (Hreg LR lr_kept).
      destruct (m_regs a LR); simpl; [exact I|].
      sim_done.
    + exact Hs.
Qed.

Lemma run_sim n : forall a b : machine W,
  sim rs a b ->
  sim_opt rs (run main1 yield1 n a) (run main2 yield2 n b).
Proof.
  induction n as [|n IH]; intros a b Hs; simpl; [exact Hs|].
  pose proof (step_sim Hs) as H1.
  destruct (step main1 yield1 a), (step main2 yield2 b);
    simpl in H1; try contradiction; [now apply IH | exact I].
Qed.

(** Two runs that start in states alike except on [rs]. *)
Lemma run_sim_start w0 rf rf' mm0 n :
  agree_off rs rf rf' ->
  exists a b,
    run main1 yield1 n (entry w0 rf mm0) = Some a
    /\ run main2 yield2 n (entry w0 rf' mm0) = Some b
    /\ sim rs a b.
Proof.
  intros Hag.
  destruct (run_start main1 yield1 w0 rf mm0 n) as (a & Ha & _).
  destruct (run_start main2 yield2 w0 rf' mm0 n) as (b & Hb & _).
  exists a, b. split; [assumption|]. split; [assumption|].
  assert (Hs : sim rs (entry w0 rf mm0) (entry w0 rf' mm0))
    by (repeat split; assumption).
  pose proof (run_sim n Hs) as H. now rewrite Ha, Hb in H.
Qed.

End Simulation.

(** ** The concrete process *)

Lemma agree_off_refl rs a : agree_off rs a a.
Proof. intros r _; reflexivity. Qed.

Lemma main_returning_ignores rs v v' :
  In R0 rs -> ignores rs (main_returning v) (main_returning v').
Proof.
  intros Hin w rf1 rf2 mm Hag. simpl.
  split; [reflexivity|]. split; [|reflexivity].
  intros r Hr. unfold set_reg.
  destruct (reg_eq_dec r R0) as [->|]; [contradiction | now apply Hag].
Qed.

Lemma yield_resuming_ignores rs : ignores rs yield_resuming yield_resuming.
Proof.
  intros w rf1 rf2 mm Hag. simpl. repeat split. assumption.
Qed.

(** * The claims about two runs *)

Section TwoRunClaims.

Variable W : Type.
Variables main_run yield_run : extern W.

(** C6. [main] and [yield] are declared without parameters; taking
    that as given (they do not look at [r0]-[r2]), two runs started
    with different handoff triples and otherwise alike go through the
    same program counters and log the same register writes, calls and
    returns at every step, and their registers differ at most on
    [r0]-[r2]; and the only register an instruction of the file moves
    from is [sp]. *)
Theorem handoff_parameters_unused
        (w0 : W) (mm0 : memory) (rf rf' : regfile) :
  ignores [R0; R1; R2] main_run main_run ->
  ignores [R0; R1; R2] yield_run yield_run ->
  agree_off [R0; R1; R2] rf rf' ->
  (forall n, exists a b,
      run main_run yield_run n (entry w0 rf mm0) = Some a
      /\ run main_run yield_run n (entry w0 rf' mm0) = Some b
      /\ m_pc a = m_pc b
      /\ m_trace a = m_trace b
      /\ agree_off [R0; R1; R2] (m_regs a) (m_regs b))
  /\ (forall code i rd rs',
         code_of sym_start = Some code ->
         nth_error code i = Some (Imov rd rs') -> rs' = SP).
Proof.
  intros Hmain Hyield Hag. split.
  - intros n.
    assert (Hsp : ~ In SP [R0; R1; R2])
      by (simpl; intros [H|[H|[H|[]]]]; discriminate).
    assert (Hlr : ~ In LR [R0; R1; R2])
      by (simpl; intros [H|[H|[H|[]]]]; discriminate).
    destruct (run_sim_start Hsp Hlr Hmain Hyield w0 mm0 n Hag)
      as (a & b & Ha & Hb & Hpc & Hreg & _ & _ & Ht).
    exists a, b. repeat split; assumption.
  - intros code i rd rs' Hc Hn.
    now destruct (mov_reads_sp _ _ Hc Hn).
Qed.

(** C9. The second instruction is a call: it enters [main] with the
    link register pointing at the next instruction of [_start] and
    with [r0]-[r3] as the process was started (nothing is passed); if
    [main] comes back, control is at that next instruction.  The
    result is not looked at: with a [main'] that behaves like [main]
    except for what it leaves in [r0], and [yield] not looking at
    [r0] either, both runs go through the same program counters and
    the same log. *)
Theorem main_called_result_dropped
        (main' : extern W) (w0 : W) (rf0 : regfile) (mm0 : memory) :
  ignores [R0] main_run main' ->
  ignores [R0] yield_run yield_run ->
  (exists m,
      run main_run yield_run 2 (entry w0 rf0 mm0) = Some m
      /\ m_pc m = Loc sym_main 0
      /\ m_regs m LR = Vcode (Loc sym_start 2)
      /\ m_regs m R0 = rf0 R0 /\ m_regs m R1 = rf0 R1
      /\ m_regs m R2 = rf0 R2 /\ m_regs m R3 = rf0 R3)
  /\ (forall w1 rf1 mm1,
         main_run w0 (regs_at_main rf0) mm0 = Some (w1, rf1, mm1) ->
         exists m,
           run main_run yield_run 3 (entry w0 rf0 mm0) = Some m
           /\ m_pc m = Loc sym_start 2 /\ m_regs m = rf1)
  /\ (forall n, exists a b,
         run main_run yield_run n (entry w0 rf0 mm0) = Some a
         /\ run main' yield_run n (entry w0 rf0 mm0) = Some b
         /\ m_pc a = m_pc b
         /\ m_trace a = m_trace b).
Proof.
  intros Hmain Hyield. split; [|split].
  - eexists. split; [reflexivity|]. repeat split.
  - intros w1 rf1 mm1 E. eexists.
    split; [apply (run_3 main_run yield_run w0 rf0 mm0 E)|].
    split; reflexivity.
  - intros n.
    assert (Hsp : ~ In SP [R0]) by (simpl; intros [H|[]]; discriminate).
    assert (Hlr : ~ In LR [R0]) by (simpl; intros [H|[]]; discriminate).
    destruct (run_sim_start Hsp Hlr Hmain Hyield w0 mm0 n
                            (agree_off_refl [R0] rf0))
      as (a & b & Ha & Hb & Hpc & _ & _ & _ & Ht).
    exists a, b. repeat split; assumption.
Qed.

End TwoRunClaims.

(** * The concrete process, run *)

Example assemble_start_block :
  assemble 0 [ AsmLine None     (Amov R9 SP);
               AsmLine None     (Abl sym_main);
               AsmLine (Some 1) (Abl sym_yield);
               AsmLine None     (Ab_back 1) ]
  = Some [Imov R9 SP; Ibl sym_main; Ibl sym_yield; Ib 2].
Proof. reflexivity. Qed.

Example resolve_back_nearest :
  resolve_back 1 [ AsmLine (Some 1) (Abl sym_main);
                   AsmLine (Some 1) (Abl sym_yield);
                   AsmLine None     (Ab_back 1);
                   AsmLine (Some 1) (Abl sym_yield) ] 2
  = Some 1.
Proof. reflexivity. Qed.

Example demo_run_2 :
  run (main_returning 0) yield_resuming 2 demo_start = Some demo_in_main.
Proof. reflexivity. Qed.

Example demo_run_3 :
  run (main_returning 0) yield_resuming 3 demo_start = Some (demo_back 0).
Proof. reflexivity. Qed.

Example demo_run_9_log :
  option_map (fun m => (m_pc m, actions (m_trace m), m_world m))
             (run (main_returning 0) yield_resuming 9 demo_start)
  = Some (Loc sym_start 2,
          [EvCall sym_main; EvResume sym_main;
           EvCall sym_yield; EvResume sym_yield;
           EvCall sym_yield; EvResume sym_yield],
          2).
Proof. reflexivity. Qed.

Example demo_diverging_run_50 :
  run main_diverging yield_resuming 50 demo_start = Some demo_in_main.
Proof. reflexivity. Qed.

Lemma demo_regs_agree : agree_off [R0; R1; R2] demo_regs demo_regs'.
Proof.
  intros r Hr. destruct r; try reflexivity; exfalso; apply Hr; simpl; auto.
Qed.

(** Instances of the theorems with hypotheses on the concrete process. *)

Lemma diverging_main_never_yields_witness :
  main_diverging 0 (regs_at_main demo_regs) demo_mem = None
  /\ forall n, exists m,
      run main_diverging yield_resuming n demo_start = Some m
      /\ phase_of (m_pc m) <> Some Idle
      /\ calls_to sym_yield (m_trace m) = 0.
Proof.
  split; [reflexivity|].
  apply (@diverging_main_never_yields nat main_diverging yield_resuming
           0 demo_regs demo_mem).
  reflexivity.
Defined.

Lemma returning_main_parks_witness :
  main_returning 0 0 (regs_at_main demo_regs) demo_mem
  = Some (0, set_reg R0 (Vint 0) (regs_at_main demo_regs), demo_mem)
  /\ run (main_returning 0) yield_resuming 4 demo_start
     = Some (Machine (Loc sym_yield 0)
                     (set_reg LR (Vcode (Loc sym_start 3))
                              (set_reg R0 (Vint 0) (regs_at_main demo_regs)))
                     demo_mem 0
                     (idle_trace (demo_regs SP) 0 ++ yield_call))
  /\ forall n, exists m,
      run (main_returning 0) yield_resuming (4 + n) demo_start = Some m
      /\ 1 <= calls_to sym_yield (m_trace m).
Proof.
  split; [reflexivity|].
  destruct (@returning_main_parks nat (main_returning 0) yield_resuming
              0 demo_regs demo_mem
              0 (set_reg R0 (Vint 0) (regs_at_main demo_regs)) demo_mem
              eq_refl) as (_ & H4 & _ & Hy).
  split; [exact H4 | exact Hy].
Defined.

Lemma r9_written_before_main_witness :
  run (main_returning 0) yield_resuming 2 demo_start = Some demo_in_main
  /\ In (EvWrite R9 (Vint 10240))
        [EvWrite R9 (Vint 10240); EvWrite LR (Vcode (Loc sym_start 2))]
  /\ m_regs demo_in_main R9 = Vint 10240.
Proof.
  split; [reflexivity|].
  destruct (@r9_written_before_main nat (main_returning 0) yield_resuming
              0 demo_regs demo_mem 2 demo_in_main eq_refl) as (Hlog & Hreg).
  split.
  - apply (Hlog [EvWrite R9 (Vint 10240);
                 EvWrite LR (Vcode (Loc sym_start 2))] [] eq_refl).
  - apply (Hreg 0 eq_refl).
Defined.

Lemma yield_loop_is_absorbing_witness :
  run (main_returning 0) yield_resuming 3 demo_start = Some (demo_back 0)
  /\ phase_of (m_pc (demo_back 0)) = Some Idle
  /\ (forall k, exists m',
         run (main_returning 0) yield_resuming (3 + k) demo_start = Some m'
         /\ phase_of (m_pc m') = Some Idle
         /\ loop_step (main_returning 0) yield_resuming m'
         /\ forall pre e post,
             actions (m_trace m') = pre ++ EvResume sym_yield :: e :: post ->
             e = EvCall sym_yield)
  /\ ((forall w rf mm, yield_resuming w rf mm <> None) ->
      forall N, exists k m',
        run (main_returning 0) yield_resuming (3 + k) demo_start = Some m'
        /\ m_pc m' = Loc sym_yield 0
        /\ N <= calls_to sym_yield (m_trace m')).
Proof.
  split; [reflexivity|]. split; [reflexivity|].
  destruct (@yield_loop_is_absorbing nat (main_returning 0) yield_resuming
              0 demo_regs demo_mem 3 (demo_back 0) eq_refl eq_refl)
    as (Hloop & _ & Hmany).
  split; [exact Hloop | exact Hmany].
Defined.

Lemma handoff_parameters_unused_witness :
  ignores [R0; R1; R2] (main_returning 0) (main_returning 0)
  /\ ignores [R0; R1; R2] yield_resuming yield_resuming
  /\ agree_off [R0; R1; R2] demo_regs demo_regs'
  /\ forall n, exists a b,
      run (main_returning 0) yield_resuming n (entry 0 demo_regs demo_mem)
      = Some a
      /\ run (main_returning 0) yield_resuming n (entry 0 demo_regs' demo_mem)
         = Some b
      /\ m_pc a = m_pc b
      /\ m_trace a = m_trace b
      /\ agree_off [R0; R1; R2] (m_regs a) (m_regs b).
Proof.
  assert (Hm : ignores [R0; R1; R2] (main_returning 0) (main_returning 0))
    by (apply main_returning_ignores; simpl; auto).
  pose proof (@yield_resuming_ignores [R0; R1; R2]) as Hy.
  split; [exact Hm|]. split; [exact Hy|]. split; [exact demo_regs_agree|].
  apply (@handoff_parameters_unused nat (main_returning 0) yield_resuming
           0 demo_mem demo_regs demo_regs' Hm Hy demo_regs_agree).
Defined.

Lemma main_called_result_dropped_witness :
  ignores [R0] (main_returning 0) (main_returning 7)
  /\ ignores [R0] yield_resuming yield_resuming
  /\ forall n, exists a b,
      run (main_returning 0) yield_resuming n demo_start = Some a
      /\ run (main_returning 7) yield_resuming n demo_start = Some b
      /\ m_pc a = m_pc b
      /\ m_trace a = m_trace b.
Proof.
  assert (Hm : ignores [R0] (main_returning 0) (main_returning 7))
    by (apply main_returning_ignores; simpl; auto).
  pose proof (@yield_resuming_ignores [R0]) as Hy.
  split; [exact Hm|]. split; [exact Hy|].
  apply (@main_called_result_dropped nat (main_returning 0) yield_resuming
           (main_returning 7) 0 demo_regs demo_mem Hm Hy).
Defined.


(** * Further properties of the code *)

(** ** Resolution of numeric local labels *)

Lemma defines_true l ln : defines l ln = true <-> al_label ln = Some l.
Proof.
  unfold defines. destruct (al_label ln) as [l'|].
  - rewrite Nat.eqb_eq. split; [now intros -> | now intros [= ->]].
  - split; discriminate.
Qed.

Lemma last_def_spec l : forall lines idx acc k,
  last_def l lines idx acc = Some k ->
  (acc = Some k
   /\ forall j ln, nth_error lines j = Some ln -> defines l ln = false)
  \/ (exists i ln,
         k = idx + i /\ nth_error lines i = Some ln /\ defines l ln = true
         /\ forall j ln', i < j -> nth_error lines j = Some ln' ->
                          defines l ln' = false).
Proof.
  induction lines as [|ln rest IH]; intros idx acc k H; simpl in H.
  - left. split; [assumption|]. intros [|j] ln'; discriminate.
  - destruct (IH _ _ _ H) as [(Hacc & Hno)|(i & ln' & -> & Hn & Hd & Hafter)].
    + destruct (defines l ln) eqn:Hd.
      * right. exists 0, ln. injection Hacc as <-.
        split; [lia|]. split; [reflexivity|]. split; [assumption|].
        intros [|j] ln' Hlt; [lia|]. simpl. apply Hno.
      * left. split; [assumption|].
        intros [|j] ln'; simpl; [now intros [= <-] | apply Hno].
    + right. exists (S i), ln'. split; [lia|]. split; [assumption|].
      split; [assumption|].
      intros [|j] ln'' Hlt; [lia|]. simpl. apply Hafter. lia.
Qed.

Lemma resolve_back_spec l lines pos k :
  resolve_back l lines pos = Some k ->
  k <= pos
  /\ (exists ln, nth_error lines k = Some ln /\ al_label ln = Some l)
  /\ forall j ln, k < j -> j <= pos -> nth_error lines j = Some ln ->
                  al_label ln <> Some l.
Proof.
  unfold resolve_back. intros H.
  destruct (last_def_spec _ _ _ _ H)
    as [(Hacc & _)|(i & ln & -> & Hn & Hd & Hafter)]; [discriminate|].
  simpl. rewrite nth_error_firstn in Hn.
  destruct (i <? S pos) eqn:Hlt; [|discriminate].
  apply Nat.ltb_lt in Hlt.
  split; [lia|]. split.
  - exists ln. split; [assumption | now apply defines_true].
  - intros j ln' Hij Hjp Hj Hlab.
    apply defines_true in Hlab.
    rewrite (Hafter j ln' Hij) in Hlab; [discriminate|].
    rewrite nth_error_firstn.
    assert (Hjs : (j <? S pos) = true) by (apply Nat.ltb_lt; lia).
    now rewrite Hjs.
Qed.

Lemma last_def_some l : forall lines idx x,
  last_def l lines idx (Some x) <> None.
Proof.
  induction lines as [|ln rest IH]; intros idx x; simpl; [discriminate|].
  destruct (defines l ln); apply IH.
Qed.

Lemma last_def_found l : forall lines idx acc j ln,
  nth_error lines j = Some ln -> defines l ln = true ->
  last_def l lines idx acc <> None.
Proof.
  induction lines as [|ln0 rest IH]; intros idx acc [|j] ln Hn Hd;
    simpl in *; try discriminate.
  - injection Hn as ->. rewrite Hd. apply last_def_some.
  - now apply (IH _ _ j ln).
Qed.

(** X1. When [b <l>b] on line [pos] resolves to line [k], then [k] is at
    or before the branch, line [k] carries the label [l], and no line
    after [k] up to the branch carries it: the target is the nearest
    definition looking backwards. *)
Theorem resolve_back_sound l lines pos k :
  resolve_back l lines pos = Some k ->
  k <= pos
  /\ (exists ln, nth_error lines k = Some ln /\ al_label ln = Some l)
  /\ forall j ln, k < j -> j <= pos -> nth_error lines j = Some ln ->
                  al_label ln <> Some l.
Proof. apply resolve_back_spec. Qed.

(** X7. A backward reference to a label that is defined on some line at
    or before the branch always resolves, and to a line no earlier than
    that definition. *)
Theorem resolve_back_complete l lines pos j ln :
  j <= pos -> nth_error lines j = Some ln -> al_label ln = Some l ->
  exists k, resolve_back l lines pos = Some k /\ j <= k /\ k <= pos.
Proof.
  intros Hj Hn Hl.
  destruct (resolve_back l lines pos) as [k|] eqn:E.
  - exists k. split; [reflexivity|].
    destruct (resolve_back_spec _ _ _ E) as (Hk & _ & Hafter).
    split; [|assumption].
    destruct (Nat.le_gt_cases j k) as [Hle|Hgt]; [assumption|].
    exfalso. now apply (Hafter j ln Hgt Hj Hn).
  - exfalso. unfold resolve_back in E.
    apply (@last_def_found l (firstn (S pos) lines) 0 None j ln); try assumption.
    + rewrite nth_error_firstn.
      assert (Hjs : (j <? S pos) = true) by (apply Nat.ltb_lt; lia).
      now rewrite Hjs.
    + now apply defines_true.
Qed.

(** ** The loop, round by round *)

Section Rounds.

Variable W : Type.
Variables main_run yield_run : extern W.

Local Abbreviation run' := (run main_run yield_run).

(** One round: [bl yield], the return of [yield], [b 1b]. *)
Lemma loop_round sp0 k w rf mm w' rf' mm' :
  yield_run w (set_reg LR (Vcode (Loc sym_start 3)) rf) mm
  = Some (w', rf', mm') ->
  run' 3 (Machine (Loc sym_start 2) rf mm w (idle_trace sp0 k))
  = Some (Machine (Loc sym_start 2) rf' mm' w' (idle_trace sp0 (S k))).
Proof.
  intros E.
  assert (H1 : step main_run yield_run
                 (Machine (Loc sym_yield 0)
                          (set_reg LR (Vcode (Loc sym_start 3)) rf) mm w
                          (idle_trace sp0 k ++ yield_call))
               = Some (Machine (Loc sym_start 3) rf' mm' w'
                               (idle_trace sp0 (S k)))).
  { unfold step. cbn [m_pc code_of extern_of m_world m_regs m_mem].
    rewrite E. rewrite idle_trace_S. reflexivity. }
  change (run' 3 (Machine (Loc sym_start 2) rf mm w (idle_trace sp0 k)))
    with (match step main_run yield_run
                  (Machine (Loc sym_yield 0)
                           (set_reg LR (Vcode (Loc sym_start 3)) rf) mm w
                           (idle_trace sp0 k ++ yield_call)) with
          | Some m' => run' 1 m'
          | None => None
          end).
  rewrite H1. reflexivity.
Qed.

(** X2. The run refines the two-phase program of the source comment: if
    [main] comes back and the first [k] yields of the loop come back,
    then after [3 + 3 * k] steps the machine is at the head of the loop
    with exactly the world, registers and memory that [k] rounds of
    [yield_loop] produce from what [main] left, and the log is that of
    [k] complete rounds. *)
Theorem loop_refines_yield_loop
        (w0 : W) (rf0 : regfile) (mm0 : memory)
        (s1 : W * regfile * memory) (k : nat)
        (w : W) (rf : regfile) (mm : memory) :
  main_run w0 (regs_at_main rf0) mm0 = Some s1 ->
  yield_loop yield_run k s1 = Some (w, rf, mm) ->
  run' (3 + 3 * k) (entry w0 rf0 mm0)
  = Some (Machine (Loc sym_start 2) rf mm w (idle_trace (rf0 SP) k)).
Proof.
  intros Hmain. revert w rf mm.
  induction k as [|k IH]; intros w rf mm Hloop.
  - simpl in Hloop. injection Hloop as ->.
    apply (run_3 main_run yield_run w0 rf0 mm0 Hmain).
  - simpl in Hloop.
    destruct (yield_loop yield_run k s1) as [[[wk rfk] mmk]|];
      [|discriminate].
    replace (3 + 3 * S k) with ((3 + 3 * k) + 3) by lia.
    rewrite run_plus, (IH wk rfk mmk eq_refl).
    now apply loop_round.
Qed.

End Rounds.

(** ** Registers the callees hand back *)

Section KeptRegisters.

Variable W : Type.
Variables main_run yield_run : extern W.
Variable w0 : W.
Variable rf0 : regfile.
Variable mm0 : memory.
Variable r : reg.

Hypothesis not_lr : r <> LR.
Hypothesis main_keeps : preserves r main_run.
Hypothesis yield_keeps : preserves r yield_run.

Local Abbreviation step' := (step main_run yield_run).
Local Abbreviation run' := (run main_run yield_run).

(** A step from a reachable state keeps [r]; at the first instruction,
    [mov r9, sp], only if [r] is not [r9]. *)
Lemma step_keeps (m m' : machine W) :
  reachable w0 rf0 mm0 m ->
  (m_pc m = Loc sym_start 0 -> r <> R9) ->
  step' m = Some m' ->
  m_regs m' r = m_regs m r /\ m_pc m' <> Loc sym_start 0.
Proof.
  destruct 1 as [| |m He];
    [| |destruct He as [|m Hp]; [|destruct Hp as [k rf mm w|k rf mm w Hl|k rf mm w]]];
    intros H9 Hs.
  - injection Hs as <-. split; [|discriminate].
    apply set_reg_other. now apply H9.
  - injection Hs as <-. split; [|discriminate].
    now apply set_reg_other.
  - unfold step in Hs; simpl in Hs.
    destruct (main_run w0 (regs_at_main rf0) mm0) as [[[w1 rf1] mm1]|] eqn:E.
    + injection Hs as <-. split; [|discriminate].
      apply (main_keeps E).
    + injection Hs as <-. split; [reflexivity | discriminate].
  - injection Hs as <-. split; [|discriminate].
    now apply set_reg_other.
  - unfold step in Hs; simpl in Hs.
    destruct (yield_run w rf mm) as [[[w1 rf1] mm1]|] eqn:E.
    + rewrite Hl in Hs. injection Hs as <-. split; [|discriminate].
      apply (yield_keeps E).
    + injection Hs as <-. split; [reflexivity | discriminate].
  - injection Hs as <-. split; [reflexivity | discriminate].
Qed.

Lemma run_keeps n : forall m : machine W,
  reachable w0 rf0 mm0 m ->
  (m_pc m = Loc sym_start 0 -> r <> R9) ->
  exists m', run' n m = Some m' /\ m_regs m' r = m_regs m r.
Proof.
  induction n as [|n IH]; intros m Hm H9.
  - exists m. split; reflexivity.
  - destruct (step_reachable main_run yield_run Hm) as (m1 & Hs & Hm1).
    destruct (step_keeps Hm H9 Hs) as (Hr1 & Hpc1).
    destruct (IH m1 Hm1) as (m' & Hr & Hk); [now intros E|].
    exists m'. simpl. rewrite Hs. split; [assumption | congruence].
Qed.

End KeptRegisters.

Section KeptRegisterTheorems.

Variable W : Type.
Variables main_run yield_run : extern W.

(** X3. A register other than [r9] and the link register that [main]
    and [yield] hand back as they found it (the stack pointer, the
    callee-saved registers) holds, in every state of a run, the value it
    had when the kernel started the process: the trampoline uses no
    stack and no scratch register. *)
Theorem kept_register_constant
        (w0 : W) (rf0 : regfile) (mm0 : memory) (r : reg) :
  r <> R9 -> r <> LR ->
  preserves r main_run -> preserves r yield_run ->
  forall n, exists m,
    run main_run yield_run n (entry w0 rf0 mm0) = Some m
    /\ m_regs m r = rf0 r.
Proof.
  intros H9 Hl Hm Hy n.
  apply (@run_keeps W main_run yield_run w0 rf0 mm0 r Hl Hm Hy n
                    (entry w0 rf0 mm0) (reach_entry w0 rf0 mm0)).
  now intros _.
Qed.

(** X4. If [main] and [yield] hand [r9] back as they found it, then from
    the first step on [r9] holds the initial stack pointer in every
    state of the run, in the loop as well as inside [main]. *)
Theorem r9_stays_initial_sp
        (w0 : W) (rf0 : regfile) (mm0 : memory) :
  preserves R9 main_run -> preserves R9 yield_run ->
  forall n, exists m,
    run main_run yield_run (1 + n) (entry w0 rf0 mm0) = Some m
    /\ m_regs m R9 = rf0 SP.
Proof.
  intros Hm Hy n. rewrite run_plus, run_1.
  assert (Hl : R9 <> LR) by discriminate.
  destruct (@run_keeps W main_run yield_run w0 rf0 mm0 R9 Hl Hm Hy n _
                       (reach_got w0 rf0 mm0)) as (m & Hr & Hk).
  - discriminate.
  - exists m. split; [assumption|]. rewrite Hk. reflexivity.
Qed.

End KeptRegisterTheorems.

(** ** Instances on the concrete process *)

Lemma main_returning_preserves r v :
  r <> R0 -> preserves r (main_returning v).
Proof.
  intros Hr w rf mm w' rf' mm' [= _ <- _]. now apply set_reg_other.
Qed.

Lemma yield_resuming_preserves r : preserves r yield_resuming.
Proof. intros w rf mm w' rf' mm' [= _ <- _]. reflexivity. Qed.

Lemma resolve_back_sound_witness :
  resolve_back 1 start_asm_lines 3 = Some 2
  /\ 2 <= 3
  /\ (exists ln, nth_error start_asm_lines 2 = Some ln
                 /\ al_label ln = Some 1)
  /\ forall j ln, 2 < j -> j <= 3 ->
                  nth_error start_asm_lines j = Some ln ->
                  al_label ln <> Some 1.
Proof.
  split; [reflexivity|].
  apply (@resolve_back_sound 1 start_asm_lines 3 2). reflexivity.
Defined.

Lemma loop_refines_yield_loop_witness :
  main_returning 0 0 (regs_at_main demo_regs) demo_mem
  = Some (0, m_regs (demo_back 0), demo_mem)
  /\ yield_loop yield_resuming 2 (0, m_regs (demo_back 0), demo_mem)
     = Some (2,
             set_reg LR (Vcode (Loc sym_start 3))
                     (set_reg LR (Vcode (Loc sym_start 3))
                              (m_regs (demo_back 0))),
             demo_mem)
  /\ run (main_returning 0) yield_resuming (3 + 3 * 2) demo_start
     = Some (Machine (Loc sym_start 2)
                     (set_reg LR (Vcode (Loc sym_start 3))
                              (set_reg LR (Vcode (Loc sym_start 3))
                                       (m_regs (demo_back 0))))
                     demo_mem 2 (idle_trace (demo_regs SP) 2)).
Proof.
  split; [reflexivity|]. split; [reflexivity|].
  apply (@loop_refines_yield_loop nat (main_returning 0) yield_resuming
           0 demo_regs demo_mem (0, m_regs (demo_back 0), demo_mem) 2);
    reflexivity.
Defined.

Lemma kept_register_constant_witness :
  SP <> R9 /\ SP <> LR
  /\ preserves SP (main_returning 0) /\ preserves SP yield_resuming
  /\ forall n, exists m,
      run (main_returning 0) yield_resuming n demo_start = Some m
      /\ m_regs m SP = demo_regs SP.
Proof.
  assert (H9 : SP <> R9) by discriminate.
  assert (Hl : SP <> LR) by discriminate.
  assert (H0 : SP <> R0) by discriminate.
  pose proof (@main_returning_preserves SP 0 H0) as Hm.
  pose proof (@yield_resuming_preserves SP) as Hy.
  split; [exact H9|]. split; [exact Hl|].
  split; [exact Hm|]. split; [exact Hy|].
  apply (@kept_register_constant nat (main_returning 0) yield_resuming
           0 demo_regs demo_mem SP H9 Hl Hm Hy).
Defined.

Lemma r9_stays_initial_sp_witness :
  preserves R9 (main_returning 0) /\ preserves R9 yield_resuming
  /\ forall n, exists m,
      run (main_returning 0) yield_resuming (1 + n) demo_start = Some m
      /\ m_regs m R9 = demo_regs SP.
Proof.
  assert (H0 : R9 <> R0) by discriminate.
  pose proof (@main_returning_preserves R9 0 H0) as Hm.
  pose proof (@yield_resuming_preserves R9) as Hy.
  split; [exact Hm|]. split; [exact Hy|].
  apply (@r9_stays_initial_sp nat (main_returning 0) yield_resuming
           0 demo_regs demo_mem Hm Hy).
Defined.

Lemma resolve_back_complete_witness :
  2 <= 3
  /\ nth_error start_asm_lines 2 = Some (AsmLine (Some 1) (Abl sym_yield))
  /\ exists k, resolve_back 1 start_asm_lines 3 = Some k /\ 2 <= k /\ k <= 3.
Proof.
  assert (H : 2 <= 3) by lia.
  split; [exact H|]. split; [reflexivity|].
  apply (@resolve_back_complete 1 start_asm_lines 3 2
           (AsmLine (Some 1) (Abl sym_yield)) H eq_refl eq_refl).
Defined.
